(** * ebuild, examples/additional-dependencies/main.c

    A shallow embedding of the example program and of the part of the C
    library it calls, followed by the properties its specification states.

    Conventions of the embedding:
    - a [char] array is a list of cells, one per byte of capacity; a cell that
      was never written holds no value (locals such as [char line[256]] start
      that way);
    - a pointer into an array is the array together with an index; every
      pointer the program passes around points at index 0, except
      [last_slash] in [parent_dir];
    - an access outside an array, a read of a cell never written and a
      dereference of a null pointer are undefined behaviour in C; the
      embedding stops there with the reason, it does not guess a layout;
    - the process state visible to the program is the file system (path to
      content), the table of open streams, and what was written so far to
      standard output and standard error;
    - text mode is the identity on bytes, as on POSIX systems, and reading
      an open stream does not fail;
    - the read loop carries a step budget ([fuel]), and the theorems show
      that a budget larger than the file length is never exhausted. *)

From Stdlib Require Import Ascii String ZArith.
From stdpp Require Import base option list gmap strings.

Open Scope char_scope.
Open Scope list_scope.

(** ** Outcomes of a computation *)

Inductive undefined :=
  | ReadPast (i : nat)        (* read at index [i], beyond the array *)
  | WritePast (i : nat)       (* write at index [i], beyond the array *)
  | Indeterminate (i : nat)   (* read of a cell never written *)
  | NullPointer               (* dereference of NULL *)
  | BadStream.                (* use of a FILE that is not open *)

Inductive res (A : Type) :=
  | Ok (a : A)                (* normal completion with value [a] *)
  | UB (u : undefined)        (* undefined behaviour was reached *)
  | Fuel.                     (* the step budget ran out *)
Arguments Ok {A} a.
Arguments UB {A} u.
Arguments Fuel {A}.

#[global] Instance res_ret : MRet res := λ A a, Ok a.
#[global] Instance res_fmap : FMap res := λ A B f m,
  match m with
  | Ok a => Ok (f a)
  | UB u => UB u
  | Fuel => Fuel
  end.
#[global] Instance res_bind : MBind res := λ A B f m,
  match m with
  | Ok a => f a
  | UB u => UB u
  | Fuel => Fuel
  end.

(** ** Character arrays *)

Definition NUL : ascii := "000".
Definition LF : ascii := "010".

Abbreviation cell := (option ascii).
Abbreviation char_array := (list cell).

(** [char name[n];] without initialiser. *)
Definition uninit (n : nat) : char_array := replicate n None.
Arguments uninit : simpl never.

(** [sizeof(a)] for a [char] array. *)
Definition sizeof (a : char_array) : nat := length a.

(** The characters of a literal. *)
Definition chars (s : string) : list ascii := list_ascii_of_string s.

(** The array a string constant or an [argv] entry occupies: its characters
    and the terminator. *)
Definition c_str (s : list ascii) : char_array := (Some <$> s) ++ [Some NUL].

(** [b[i] = c]. *)
Definition store (b : char_array) (i : nat) (c : ascii) : res char_array :=
  if decide (i < length b) then Ok (<[i := Some c]> b) else UB (WritePast i).

(** ** <string.h> *)

(** The string a pointer designates: the characters before the first
    terminator. [i] is the index of the head of [s] in its array. *)
Fixpoint cstr_from (s : char_array) (i : nat) : res (list ascii) :=
  match s with
  | [] => UB (ReadPast i)
  | None :: _ => UB (Indeterminate i)
  | Some c :: s' =>
      if decide (c = NUL) then Ok [] else (c ::.) <$> cstr_from s' (S i)
  end.
Definition cstr (s : char_array) : res (list ascii) := cstr_from s 0.

(** [strrchr(s, c)]: the index of the last occurrence of [c] in the string,
    the terminator counting as part of it; [None] is the null pointer.
    [found] is the candidate so far, [i] the index of the head of [s]. *)
Fixpoint strrchr_from (s : char_array) (c : ascii) (i : nat) (found : option nat)
    : res (option nat) :=
  match s with
  | [] => UB (ReadPast i)
  | None :: _ => UB (Indeterminate i)
  | Some x :: s' =>
      let found' := if decide (x = c) then Some i else found in
      if decide (x = NUL) then Ok found' else strrchr_from s' c (S i) found'
  end.

Definition strrchr (s : char_array) (c : ascii) : res (option nat) :=
  strrchr_from s c 0 None.

(** [strcpy(dst, src)]: copies up to and including the terminator, with no
    regard for the capacity of [dst]; returns [dst]. *)
Fixpoint strcpy_from (dst src : char_array) (i : nat) : res char_array :=
  match src with
  | [] => UB (ReadPast i)
  | None :: _ => UB (Indeterminate i)
  | Some c :: src' =>
      dst' ← store dst i c;
      if decide (c = NUL) then Ok dst' else strcpy_from dst' src' (S i)
  end.

Definition strcpy (dst src : char_array) : res char_array := strcpy_from dst src 0.

(** ** The runtime-directory resolver *)

Definition parent_dir (path : char_array) : res char_array :=
  last_slash ← strrchr path "/";
  match last_slash with
  | Some i => store path i NUL
  | None => Ok path
  end.

(** [argv[0]] is a null pointer when the argument vector is empty. *)
Definition get_runtime_dir (argc : Z) (argv : list char_array) (buffer : char_array)
    (buffer_size : Z) : res char_array :=
  match argv !! 0%nat with
  | None => UB NullPointer
  | Some arg0 => strcpy buffer arg0 ≫= parent_dir
  end.

(** ** <stdio.h> *)

(** What the program can observe of its environment and what it leaves
    behind: the readable files, the open streams with what is still unread of
    each, and the two output streams. *)
Record world := World {
  files : gmap (list ascii) (list ascii);
  streams : gmap nat (list ascii);
  stdout : list ascii;
  stderr : list ascii
}.

Inductive std := Stdout | Stderr.

Definition emit (f : std) (text : list ascii) (w : world) : world :=
  match f with
  | Stdout => World (files w) (streams w) (stdout w ++ text) (stderr w)
  | Stderr => World (files w) (streams w) (stdout w) (stderr w ++ text)
  end.

Definition set_streams (m : gmap nat (list ascii)) (w : world) : world :=
  World (files w) m (stdout w) (stderr w).

(** The characters of a string literal of the source: the only escape the
    program uses is the backslash followed by n. *)
Fixpoint literal (src : string) : list ascii :=
  match src with
  | EmptyString => []
  | String c rest =>
      match rest with
      | String d rest' =>
          if decide (c = "\" ∧ d = "n") then LF :: literal rest'
          else c :: literal rest
      | EmptyString => [c]
      end
  end.

(** Expansion of a format. Every format of the program has the single
    conversion [%s], so one argument is enough. *)
Fixpoint format (fmt : list ascii) (arg : list ascii) : list ascii :=
  match fmt with
  | [] => []
  | c :: fmt' =>
      match fmt' with
      | d :: fmt'' =>
          if decide (c = "%" ∧ d = "s") then arg ++ format fmt'' arg
          else c :: format fmt' arg
      | [] => [c]
      end
  end.

Definition fprintf (f : std) (fmt : string) (arg : char_array) (w : world)
    : res world :=
  text ← cstr arg;
  Ok (emit f (format (literal fmt) text) w).

Definition printf (fmt : string) (arg : char_array) (w : world) : res world :=
  fprintf Stdout fmt arg w.

(** [s[i] = c0; s[i+1] = c1; ...] *)
Fixpoint store_all (s : char_array) (i : nat) (cs : list ascii) : res char_array :=
  match cs with
  | [] => Ok s
  | c :: cs' => s' ← store s i c; store_all s' (S i) cs'
  end.

(** [snprintf(s, n, fmt, arg)]: at most [n - 1] characters of the expansion,
    then the terminator; nothing is written when [n] is 0. The program
    ignores the returned count. *)
Definition snprintf (s : char_array) (n : nat) (fmt : string) (arg : char_array)
    : res char_array :=
  text ← cstr arg;
  if decide (n = 0) then Ok s
  else store_all s 0 (take (n - 1) (format (literal fmt) text) ++ [NUL]).

(** [fopen(path, "r")]: a null pointer when there is no such readable file,
    otherwise a stream that was not open before, positioned at the start.
    Reading is the only mode the program asks for. *)
Definition fopen (path : char_array) (mode : string) (w : world)
    : res (option nat * world) :=
  name ← cstr path;
  match files w !! name with
  | None => Ok (None, w)
  | Some content =>
      let file := fresh (dom (streams w)) in
      Ok (Some file, set_streams (<[file := content]> (streams w)) w)
  end.

Definition fclose (file : nat) (w : world) : res world :=
  match streams w !! file with
  | None => UB BadStream
  | Some _ => Ok (set_streams (delete file (streams w)) w)
  end.

(** What one [fgets] takes off the input: at most [n] characters, ending
    after the first newline; the pair is what was taken and the rest. *)
Fixpoint take_line (n : nat) (input : list ascii) : list ascii * list ascii :=
  match n, input with
  | S n', c :: input' =>
      if decide (c = LF) then ([c], input')
      else let '(got, rest) := take_line n' input' in (c :: got, rest)
  | _, _ => ([], input)
  end.

(** [fgets(s, n, file)]: a null pointer, with [s] untouched, at end of
    input; otherwise [s], filled with the characters taken and a terminator. *)
Definition fgets (s : char_array) (n : nat) (file : nat) (w : world)
    : res (option char_array * world) :=
  match streams w !! file with
  | None => UB BadStream
  | Some input =>
      if decide (n = 0) then Ok (None, w)
      else match input with
      | [] => Ok (None, w)
      | _ :: _ =>
          let '(got, rest) := take_line (n - 1) input in
          s' ← store_all s 0 (got ++ [NUL]);
          Ok (Some s', set_streams (<[file := rest]> (streams w)) w)
      end
  end.

(** ** The file printer *)

(** [while (fgets(line, sizeof(line), file)) printf("%s", line);] *)
Fixpoint read_loop (fuel : nat) (line : char_array) (file : nat) (w : world)
    : res world :=
  match fuel with
  | 0 => Fuel
  | S fuel' =>
      '(got, w) ← fgets line (sizeof line) file w;
      match got with
      | Some line => printf "%s" line w ≫= read_loop fuel' line file
      | None => Ok w
      end
  end.

Definition print_file_content (fuel : nat) (path : char_array) (w : world)
    : res world :=
  '(file, w) ← fopen path "r" w;
  match file with
  | Some file =>
      let line := uninit 256 in
      w ← read_loop fuel line file w;
      fclose file w
  | None => fprintf Stderr "Failed to open file: %s\n" path w
  end.

(** ** The program *)

(** Control reaches the closing brace of [main], which returns 0. *)
Definition main (fuel : nat) (argc : Z) (argv : list char_array) (w : world)
    : res (Z * world) :=
  let path_buffer := uninit 1024 in
  let example_buffer := uninit 1024 in
  path_buffer ← get_runtime_dir argc argv path_buffer
                  (Z.of_nat (sizeof path_buffer));
  w ← printf "Runtime directory: %s\n" path_buffer w;
  example_buffer ← snprintf example_buffer (sizeof example_buffer)
                     "%s/example.txt" path_buffer;
  w ← fprintf Stdout "Open file at path: %s\n" example_buffer w;
  w ← print_file_content fuel example_buffer w;
  Ok (0%Z, w).

(** ** Specification-side vocabulary *)

(** The part of [s] before the last [c]; nothing when [c] does not occur. *)
Fixpoint before_last (c : ascii) (s : list ascii) : option (list ascii) :=
  match s with
  | [] => None
  | x :: s' =>
      match before_last c s' with
      | Some d => Some (x :: d)
      | None => if decide (x = c) then Some [] else None
      end
  end.

(** The resolved directory as the specification words it: the path without
    its last segment, or the path itself when it has no separator. *)
Definition runtime_dir (arg0 : list ascii) : list ascii :=
  default arg0 (before_last "/" arg0).

(** The part of [s] before the first terminator. *)
Fixpoint before_nul (s : list ascii) : list ascii :=
  match s with
  | [] => []
  | c :: s' => if decide (c = NUL) then [] else c :: before_nul s'
  end.

(** The file content as a sequence of lines, each ending with its newline,
    except possibly the last. *)
Fixpoint lines (s : list ascii) : list (list ascii) :=
  match s with
  | [] => []
  | c :: s' =>
      if decide (c = LF) then [c] :: lines s'
      else match lines s' with
           | [] => [[c]]
           | l :: ls => (c :: l) :: ls
           end
  end.

(** The successive chunks that [fgets] with room for [n] characters hands
    to the read loop on [input]: the loop seen from its input alone. *)
Fixpoint chunks (fuel n : nat) (input : list ascii) : res (list (list ascii)) :=
  match fuel with
  | 0 => Fuel
  | S fuel' =>
      match input with
      | [] => Ok []
      | _ :: _ =>
          let '(got, rest) := take_line n input in
          (got ::.) <$> chunks fuel' n rest
      end
  end.

(** What [printf("%s", line)] shows of the chunks. *)
Definition shown (cs : list (list ascii)) : list ascii :=
  concat (before_nul <$> cs).

(** The target path as the specification words it, within the 1023
    characters that [example_buffer] can hold. *)
Definition target_path (arg0 : list ascii) : list ascii :=
  take 1023 (runtime_dir arg0 ++ chars "/example.txt").

(** The two label lines and the diagnostic line. *)
Definition label_lines (arg0 : list ascii) : list ascii :=
  chars "Runtime directory: " ++ runtime_dir arg0 ++ [LF]
  ++ chars "Open file at path: " ++ target_path arg0 ++ [LF].
Arguments label_lines : simpl never.

Definition diagnostic (name : list ascii) : list ascii :=
  chars "Failed to open file: " ++ name ++ [LF].
Arguments diagnostic : simpl never.

(** The two label lines for a directory and a target path. *)
Definition labels_for (dir target : list ascii) : list ascii :=
  chars "Runtime directory: " ++ dir ++ [LF]
  ++ chars "Open file at path: " ++ target ++ [LF].
Arguments labels_for : simpl never.

(** ** States and arguments of the examples *)

Definition tmp_app : char_array := c_str (chars "/tmp/app").

Definition hello : list ascii := literal "hello\nworld\n".

(** A process that starts next to the file of the specification's example. *)
Definition hello_before : world :=
  World {[ chars "/tmp/example.txt" := hello ]} ∅ [] [].

(** The state the run from [hello_before] ends in. *)
Definition hello_after : world :=
  World {[ chars "/tmp/example.txt" := hello ]} ∅
    (literal "Runtime directory: /tmp\nOpen file at path: /tmp/example.txt\nhello\nworld\n")
    [].

(** Another state with the same target file: one more file, a stream
    already open, output already written. *)
Definition busy_state : world :=
  World {[ chars "/tmp/example.txt" := hello; chars "/tmp/other" := [] ]}
    {[ 3 := chars "unread" ]} (chars "earlier output") [].

(** A process that starts where there is no file at all. *)
Definition nothing_there : world := World ∅ ∅ [] [].

(** * Properties *)

Section Arrays.
Implicit Types (b s dst src tl : char_array) (t d seg : list ascii).

Lemma res_fmap_Ok {A B} (f : A → B) (m : res A) (y : B) :
  f <$> m = Ok y ↔ ∃ x, m = Ok x ∧ y = f x.
Proof.
  destruct m; csimpl; split; try (intros [? [? ?]]); try discriminate.
  - intros [= <-]. eauto.
  - congruence.
Qed.

Lemma before_nul_id t : NUL ∉ t → before_nul t = t.
Proof.
  induction t as [|c t IH]; [done|]. intros [? ?]%not_elem_of_cons.
  simpl. rewrite decide_False by done. by rewrite IH.
Qed.

Lemma before_nul_no_nul t : NUL ∉ before_nul t.
Proof.
  induction t as [|c t IH]; csimpl; [apply not_elem_of_nil|].
  case_decide; [apply not_elem_of_nil|]. apply not_elem_of_cons. done.
Qed.

(** An array whose first cells spell [t] and a terminator designates
    the part of [t] before its first terminator, independently of what
    follows and of the index it is read from. *)
Lemma cstr_from_spelled t tl i :
  cstr_from ((Some <$> t) ++ Some NUL :: tl) i = Ok (before_nul t).
Proof.
  revert i. induction t as [|c t IH]; intros i; csimpl.
  - done.
  - case_decide; [done|]. by rewrite IH.
Qed.

(** Conversely, an array that designates a string spells it. *)
Lemma cstr_from_inv b i t :
  cstr_from b i = Ok t →
  (NUL ∉ t) ∧ (∃ tl, b = (Some <$> t) ++ Some NUL :: tl).
Proof.
  revert i t. induction b as [|[c|] b IH]; intros i t; csimpl; try discriminate.
  case_decide as Hc.
  - intros [= <-]. split; [apply not_elem_of_nil|]. exists b. by rewrite Hc.
  - intros (t' & Ht' & ->)%res_fmap_Ok.
    destruct (IH _ _ Ht') as (Hn & tl & ->). split.
    + apply not_elem_of_cons. split; [congruence|done].
    + by exists tl.
Qed.

Lemma cstr_inv b t :
  cstr b = Ok t → (NUL ∉ t) ∧ (∃ tl, b = (Some <$> t) ++ Some NUL :: tl).
Proof. apply cstr_from_inv. Qed.

Lemma cstr_spelled t tl :
  NUL ∉ t → cstr ((Some <$> t) ++ Some NUL :: tl) = Ok t.
Proof. intros. unfold cstr. by rewrite cstr_from_spelled, before_nul_id. Qed.

Lemma cstr_c_str t : NUL ∉ t → cstr (c_str t) = Ok t.
Proof. apply cstr_spelled. Qed.

(** [strrchr] on a string in which [c] does not occur keeps the candidate. *)
Lemma strrchr_from_absent t tl c i found :
  c ≠ NUL → NUL ∉ t → c ∉ t →
  strrchr_from ((Some <$> t) ++ Some NUL :: tl) c i found = Ok found.
Proof.
  intros Hc. revert i found. induction t as [|x t IH]; intros i found Hn Ht; csimpl.
  - by rewrite decide_False.
  - apply not_elem_of_cons in Hn as [? ?]. apply not_elem_of_cons in Ht as [? ?].
    rewrite !decide_False by done. by apply IH.
Qed.

(** [strrchr] finds the occurrence after which there is no other. *)
Lemma strrchr_from_last d seg tl c i found :
  c ≠ NUL → NUL ∉ d → NUL ∉ seg → c ∉ seg →
  strrchr_from ((Some <$> d ++ c :: seg) ++ Some NUL :: tl) c i found
  = Ok (Some (i + length d)).
Proof.
  intros Hc Hd Hs Hseg. revert i found.
  induction d as [|x d IH]; intros i found; csimpl.
  - rewrite decide_False by done. rewrite decide_True by done.
    rewrite strrchr_from_absent by done. do 2 f_equal. lia.
  - apply not_elem_of_cons in Hd as [? ?].
    rewrite (decide_False (P := x = NUL)) by done.
    rewrite IH by done. f_equal. f_equal. lia.
Qed.

Lemma before_last_None c t : before_last c t = None ↔ c ∉ t.
Proof.
  induction t as [|x t IH]; csimpl.
  - split; [intros _; apply not_elem_of_nil|done].
  - rewrite not_elem_of_cons. destruct (before_last c t) as [d|].
    + split; [done|]. intros [_ Ht]. by apply IH in Ht.
    + case_decide as Hx.
      * split; [done|]. intros [? _]. congruence.
      * split; [|done]. intros _. split; [congruence|by apply IH].
Qed.

Lemma before_last_app c d seg :
  c ∉ seg → before_last c (d ++ c :: seg) = Some d.
Proof.
  intros Hseg. induction d as [|x d IH]; csimpl.
  - apply before_last_None in Hseg as ->. by rewrite decide_True.
  - by rewrite IH.
Qed.

Lemma before_last_Some c t d :
  before_last c t = Some d ↔ ∃ seg, t = d ++ c :: seg ∧ c ∉ seg.
Proof.
  split; [|intros (seg & -> & ?); by apply before_last_app].
  revert d. induction t as [|x t IH]; intros d; csimpl; [done|].
  destruct (before_last c t) as [d'|] eqn:Hb.
  - intros [= <-]. destruct (IH d' eq_refl) as (seg & -> & ?). by exists seg.
  - case_decide; [|done]. intros [= <-]. subst x. exists t.
    split; [done|]. by apply before_last_None.
Qed.

(** A run of stores that fits lands in the array; the cells around it
    keep their contents. *)
Lemma store_all_fits s i t :
  i + length t ≤ length s →
  store_all s i t = Ok (take i s ++ (Some <$> t) ++ drop (i + length t) s).
Proof.
  revert s i. induction t as [|c t IH]; intros s i Hlen; csimpl.
  - by rewrite Nat.add_0_r, take_drop.
  - simpl in Hlen. unfold store. rewrite decide_True by lia. csimpl.
    rewrite IH by (rewrite length_insert; lia).
    rewrite drop_insert_lt by lia.
    assert (<[i:=Some c]> s !! i = Some (Some c)) as Hi
      by (apply list_lookup_insert_eq; lia).
    rewrite (take_S_r _ _ _ Hi), take_insert_ge, <- app_assoc by done.
    csimpl. by rewrite Nat.add_succ_r.
Qed.

(** A run of stores that does not fit stops at the first index past the
    end of the array. *)
Lemma store_all_overrun s i t :
  i ≤ length s → length s < i + length t →
  store_all s i t = UB (WritePast (length s)).
Proof.
  revert s i. induction t as [|c t IH]; intros s i Hi Hlen; csimpl.
  - simpl in Hlen. lia.
  - simpl in Hlen. unfold store. case_decide as Hlt; csimpl.
    + rewrite IH by (rewrite length_insert; lia). by rewrite length_insert.
    + do 2 f_equal. lia.
Qed.

(** [strcpy] stores the characters of the source string and its
    terminator, one after the other, whatever the capacity of [dst]. *)
Lemma strcpy_from_stores dst t tl i :
  NUL ∉ t →
  strcpy_from dst ((Some <$> t) ++ Some NUL :: tl) i = store_all dst i (t ++ [NUL]).
Proof.
  revert dst i. induction t as [|c t IH]; intros dst i Hn; csimpl.
  - by destruct (store dst i NUL).
  - apply not_elem_of_cons in Hn as [? ?].
    destruct (store dst i c) as [dst'| |]; csimpl; [|done..].
    rewrite decide_False by done. by apply IH.
Qed.

Lemma strcpy_fits dst src t :
  cstr src = Ok t → length t < length dst →
  strcpy dst src = Ok ((Some <$> t) ++ Some NUL :: drop (S (length t)) dst).
Proof.
  intros (Hn & tl & ->)%cstr_inv Hlen. unfold strcpy.
  rewrite strcpy_from_stores by done.
  rewrite store_all_fits by (rewrite length_app; simpl; lia).
  rewrite length_app, fmap_app, <- app_assoc. csimpl.
  by rewrite Nat.add_1_r.
Qed.

Lemma strcpy_overrun dst src t :
  cstr src = Ok t → length dst ≤ length t →
  strcpy dst src = UB (WritePast (length dst)).
Proof.
  intros (Hn & tl & ->)%cstr_inv Hlen. unfold strcpy.
  rewrite strcpy_from_stores by done.
  apply store_all_overrun; [lia|]. rewrite length_app. simpl. lia.
Qed.

(** [parent_dir] on any array that holds a string: the outcome in full. *)
Lemma parent_dir_spelled t tl :
  NUL ∉ t →
  parent_dir ((Some <$> t) ++ Some NUL :: tl) =
  Ok (match before_last "/" t with
      | Some d => (Some <$> d) ++ Some NUL :: drop (S (length d)) ((Some <$> t) ++ Some NUL :: tl)
      | None => (Some <$> t) ++ Some NUL :: tl
      end).
Proof.
  intros Hn. unfold parent_dir, strrchr.
  destruct (before_last "/" t) as [d|] eqn:Hb.
  - apply before_last_Some in Hb as (seg & -> & Hseg).
    apply not_elem_of_app in Hn as [Hd [_ Hs]%not_elem_of_cons].
    rewrite strrchr_from_last by done. csimpl.
    unfold store. rewrite decide_True; last first.
    { rewrite length_app, length_fmap, length_app. simpl. lia. }
    f_equal. rewrite fmap_app, <- !app_assoc.
    rewrite insert_app_r_alt by (by rewrite length_fmap).
    rewrite length_fmap, Nat.sub_diag. csimpl.
    do 2 f_equal. rewrite (cons_middle (Some "/")), app_assoc.
    rewrite drop_app_length'; [done|].
    rewrite length_app, length_fmap. simpl. lia.
  - apply before_last_None in Hb.
    by rewrite strrchr_from_absent.
Qed.

Lemma parent_dir_cstr path t :
  cstr path = Ok t →
  ∃ path', parent_dir path = Ok path' ∧ cstr path' = Ok (runtime_dir t)
           ∧ length path' = length path.
Proof.
  intros (Hn & tl & ->)%cstr_inv. rewrite parent_dir_spelled by done.
  unfold runtime_dir. destruct (before_last "/" t) as [d|] eqn:Hb; csimpl.
  - eexists. split; [done|].
    apply before_last_Some in Hb as (seg & -> & Hseg).
    apply not_elem_of_app in Hn as [Hd _]. split.
    + by apply cstr_spelled.
    + simpl. rewrite !length_app, !length_fmap, length_app. simpl.
      rewrite length_drop, length_app, length_fmap, length_app. simpl. lia.
  - eexists. split; [done|]. split; [|done]. by apply cstr_spelled.
Qed.
End Arrays.

(** Closed side conditions are settled by evaluation. *)
Ltac by_evaluation :=
  match goal with |- ?P => apply (bool_decide_unpack P); vm_compute; exact I end.

(** ** The runtime-directory resolver *)

(** Every path with a separator splits at its last separator, in one way. *)
Lemma last_separator_split (s : list ascii) :
  "/" ∈ s → ∃ d seg, s = d ++ "/" :: seg ∧ ("/" ∉ seg) ∧ runtime_dir s = d.
Proof.
  intros Hin. unfold runtime_dir.
  destruct (before_last "/" s) as [d|] eqn:Hb.
  - apply before_last_Some in Hb as (seg & -> & Hseg). by exists d, seg.
  - by apply before_last_None in Hb.
Qed.

(** [parent_dir] on a path split at its last separator. *)
Lemma parent_dir_at_last_separator (path : char_array) (d seg : list ascii) :
  cstr path = Ok (d ++ "/" :: seg) →
  "/" ∉ seg →
  parent_dir path = Ok (<[length d := Some NUL]> path)
  ∧ cstr (<[length d := Some NUL]> path) = Ok d.
Proof.
  intros (Hn & tl & ->)%cstr_inv Hseg.
  apply not_elem_of_app in Hn as [Hd [_ Hs]%not_elem_of_cons].
  assert (<[length d := Some NUL]> ((Some <$> d ++ "/" :: seg) ++ Some NUL :: tl)
          = (Some <$> d) ++ Some NUL :: (Some <$> seg) ++ Some NUL :: tl) as Hset.
  { rewrite fmap_app, <- app_assoc.
    rewrite insert_app_r_alt by (by rewrite length_fmap).
    by rewrite length_fmap, Nat.sub_diag. }
  split.
  - unfold parent_dir, strrchr. rewrite strrchr_from_last by done. csimpl.
    unfold store. rewrite decide_True; [done|].
    rewrite length_app, length_fmap, length_app. simpl. lia.
  - rewrite Hset. by apply cstr_spelled.
Qed.

(** C1. For every invocation path [s] with at least one separator, held in a
    writable array, [s] is some [d], a separator and a last segment [seg]
    without separator, and [parent_dir] overwrites in place the cell of that
    last separator with a terminator: the array then designates [d], the
    path without its final segment. *)
Theorem parent_dir_strips_last_segment (path : char_array) (s : list ascii) :
  cstr path = Ok s →
  "/" ∈ s →
  ∃ d seg,
    s = d ++ "/" :: seg
    ∧ ("/" ∉ seg)
    ∧ parent_dir path = Ok (<[length d := Some NUL]> path)
    ∧ cstr (<[length d := Some NUL]> path) = Ok d.
Proof.
  intros Hpath (d & seg & -> & Hseg & _)%last_separator_split.
  exists d, seg. split; [done|]. split; [done|].
  by apply (parent_dir_at_last_separator path d seg).
Qed.

Lemma parent_dir_strips_last_segment_witness :
  let path := c_str (chars "/usr/local/bin/app") in
  ∃ d seg,
    chars "/usr/local/bin/app" = d ++ "/" :: seg
    ∧ ("/" ∉ seg)
    ∧ parent_dir path = Ok (<[length d := Some NUL]> path)
    ∧ cstr (<[length d := Some NUL]> path) = Ok d.
Proof.
  apply (parent_dir_strips_last_segment (c_str (chars "/usr/local/bin/app"))
           (chars "/usr/local/bin/app")).
  - vm_compute. reflexivity.
  - by_evaluation.
Defined.

(** The example of the specification. *)
Example parent_dir_usr_local_bin :
  let path := c_str (chars "/usr/local/bin/app") in
  parent_dir path = Ok (<[14 := Some NUL]> path)
  ∧ parent_dir path ≫= cstr = Ok (chars "/usr/local/bin").
Proof. split; vm_compute; reflexivity. Qed.

(** C4. For every invocation path without separator, [parent_dir] returns
    normally and leaves every cell of the array as it was, so the resolved
    directory is the original string. *)
Theorem parent_dir_keeps_plain_name (path : char_array) (s : list ascii) :
  cstr path = Ok s →
  "/" ∉ s →
  parent_dir path = Ok path ∧ parent_dir path ≫= cstr = Ok s.
Proof.
  intros Hpath Hs. pose proof Hpath as (Hn & tl & ->)%cstr_inv.
  assert (parent_dir ((Some <$> s) ++ Some NUL :: tl)
          = Ok ((Some <$> s) ++ Some NUL :: tl)) as ->.
  { unfold parent_dir, strrchr. by rewrite strrchr_from_absent. }
  done.
Qed.

Lemma parent_dir_keeps_plain_name_witness :
  parent_dir (c_str (chars "app")) = Ok (c_str (chars "app"))
  ∧ parent_dir (c_str (chars "app")) ≫= cstr = Ok (chars "app").
Proof.
  apply (parent_dir_keeps_plain_name _ (chars "app")).
  - reflexivity.
  - by_evaluation.
Defined.

(** Through [get_runtime_dir], when the copy fits. *)
Lemma get_runtime_dir_fits argc arg0 rest t buffer buffer_size :
  cstr arg0 = Ok t → length t < length buffer →
  ∃ dir, get_runtime_dir argc (arg0 :: rest) buffer buffer_size = Ok dir
         ∧ cstr dir = Ok (runtime_dir t) ∧ length dir = length buffer.
Proof.
  intros Harg Hlen. pose proof Harg as [Hn _]%cstr_inv.
  unfold get_runtime_dir. csimpl. rewrite (strcpy_fits _ _ t) by done. csimpl.
  destruct (parent_dir_cstr ((Some <$> t) ++ Some NUL :: drop (S (length t)) buffer) t)
    as (dir & -> & Hdir & Hl); [by apply cstr_spelled|].
  exists dir. split; [done|]. split; [done|]. rewrite Hl.
  rewrite length_app, length_fmap. simpl. rewrite length_drop. lia.
Qed.

(** C7. The copy of [argv[0]] into [buffer] takes no account of the capacity
    of [buffer], nor of [buffer_size]: whenever the invocation path has at
    least as many characters as [buffer] has cells, the copy stores at the
    index equal to the capacity, one past the last cell. With the 1024-byte
    array of [main], every path of 1024 characters or more does so. *)
Theorem get_runtime_dir_overruns
    (argc : Z) (arg0 : char_array) (rest : list char_array) (t : list ascii)
    (buffer : char_array) (buffer_size : Z) :
  cstr arg0 = Ok t →
  length buffer ≤ length t →
  get_runtime_dir argc (arg0 :: rest) buffer buffer_size
  = UB (WritePast (length buffer)).
Proof.
  intros Harg Hlen. unfold get_runtime_dir. csimpl.
  by rewrite (strcpy_overrun _ _ t).
Qed.

Lemma get_runtime_dir_overruns_witness :
  get_runtime_dir 1 [c_str (replicate 1025 "a")] (uninit 1024) 1024
  = UB (WritePast 1024).
Proof.
  apply (get_runtime_dir_overruns 1 _ [] (replicate 1025 "a") (uninit 1024) 1024).
  - vm_compute. reflexivity.
  - vm_compute. lia.
Defined.

(** ** <stdio.h> *)

Section Stdio.
Implicit Types (w : world) (s line path : char_array).
Implicit Types (t input content got rest name : list ascii).

Lemma store_all_length s i t s' :
  store_all s i t = Ok s' → length s' = length s.
Proof.
  revert s i. induction t as [|c t IH]; intros s i; csimpl.
  - by intros [= <-].
  - unfold store. case_decide; csimpl; [|done].
    intros ->%IH. by rewrite length_insert.
Qed.

Lemma take_line_length n input : length (take_line n input).1 ≤ n.
Proof.
  revert input. induction n as [|n IH]; intros [|c input]; simpl; try lia.
  case_decide; simpl; [lia|].
  specialize (IH input). destruct (take_line n input). simpl in *. lia.
Qed.

Lemma take_line_app n input :
  (take_line n input).1 ++ (take_line n input).2 = input.
Proof.
  revert input. induction n as [|n IH]; intros [|c input]; simpl; try done.
  case_decide; simpl; [done|].
  specialize (IH input). destruct (take_line n input). simpl in *. by f_equal.
Qed.

Lemma take_line_progress n c input : 0 < length (take_line (S n) (c :: input)).1.
Proof.
  simpl. case_decide; simpl; [lia|]. destruct (take_line n input). simpl. lia.
Qed.

(** One successful [fgets]. *)
Lemma fgets_chunk line n file w c input :
  streams w !! file = Some (c :: input) → 0 < n → n ≤ length line →
  fgets line n file w =
  Ok (Some ((Some <$> (take_line (n - 1) (c :: input)).1) ++ Some NUL
            :: drop (S (length (take_line (n - 1) (c :: input)).1)) line),
      set_streams (<[file := (take_line (n - 1) (c :: input)).2]> (streams w)) w).
Proof.
  intros Hs Hn Hlen. unfold fgets. rewrite Hs. rewrite decide_False by lia.
  pose proof (take_line_length (n - 1) (c :: input)) as Hgot.
  destruct (take_line (n - 1) (c :: input)) as [got rest]. simpl in *.
  rewrite store_all_fits by (rewrite length_app; simpl; lia). csimpl.
  rewrite fmap_app, <- app_assoc, length_app. csimpl.
  by rewrite Nat.add_1_r.
Qed.

(** The read loop, in terms of the chunks of its input: it shows each
    chunk up to its first terminator and leaves the stream at its end. *)
Lemma read_loop_chunks fuel line file w input :
  streams w !! file = Some input → 2 ≤ length line →
  read_loop fuel line file w =
  cs ← chunks fuel (length line - 1) input;
  Ok (World (files w) (<[file := []]> (streams w)) (stdout w ++ shown cs) (stderr w)).
Proof.
  revert line w input.
  induction fuel as [|fuel IH]; intros line w input Hs Hlen; [done|].
  destruct input as [|c input].
  - simpl. unfold fgets, sizeof. rewrite Hs. rewrite decide_False by lia. csimpl.
    destruct w as [fs ss out err]. simpl in *.
    by rewrite insert_id, app_nil_r.
  - cbn [read_loop chunks]. unfold sizeof.
    rewrite (fgets_chunk _ _ _ _ c input) by (done || lia).
    pose proof (take_line_length (length line - 1) (c :: input)) as Hgot.
    destruct (take_line (length line - 1) (c :: input)) as [got rest] eqn:Htake.
    cbn [fst snd] in *. csimpl.
    unfold printf, fprintf, cstr. rewrite cstr_from_spelled. csimpl.
    rewrite app_nil_r.
    assert (length ((Some <$> got) ++ Some NUL :: drop (S (length got)) line)
            = length line) as Hl.
    { rewrite length_app, length_fmap. simpl. rewrite length_drop. lia. }
    rewrite IH with (input := rest); [|by apply lookup_insert_eq|by rewrite Hl].
    rewrite Hl. destruct (chunks fuel (length line - 1) rest) as [cs| |]; csimpl; [|done..].
    rewrite insert_insert_eq. unfold shown. csimpl. by rewrite app_assoc.
Qed.

(** The file printer when the file opens. *)
Lemma print_file_content_found fuel path name content w :
  cstr path = Ok name → files w !! name = Some content →
  print_file_content fuel path w =
  cs ← chunks fuel 255 content;
  Ok (World (files w) (streams w) (stdout w ++ shown cs) (stderr w)).
Proof.
  intros Hpath Hfile. unfold print_file_content, fopen.
  rewrite Hpath. csimpl. rewrite Hfile. csimpl.
  set (file := fresh (dom (streams w))).
  assert (streams w !! file = None) as Hfresh
    by (apply not_elem_of_dom, is_fresh).
  rewrite read_loop_chunks with (input := content);
    [|by apply lookup_insert_eq|by vm_compute; lia].
  change (length (uninit 256) - 1) with 255.
  destruct (chunks fuel 255 content) as [cs| |]; csimpl; [|done..].
  unfold fclose. csimpl. rewrite lookup_insert_eq. f_equal.
  unfold set_streams. csimpl.
  by rewrite insert_insert_eq, delete_insert_id.
Qed.

(** The file printer when the file does not open. *)
Lemma print_file_content_missing fuel path name w :
  cstr path = Ok name → files w !! name = None →
  print_file_content fuel path w =
  Ok (emit Stderr (chars "Failed to open file: " ++ name ++ [LF]) w).
Proof.
  intros Hpath Hfile. unfold print_file_content, fopen.
  rewrite Hpath. csimpl. rewrite Hfile. csimpl.
  unfold fprintf. by rewrite Hpath.
Qed.

(** With a budget above the input length the chunks are all delivered:
    none is empty, none exceeds the limit, and together they are the
    input. *)
Lemma chunks_total fuel n input :
  0 < n → length input < fuel →
  ∃ cs, chunks fuel n input = Ok cs ∧ concat cs = input
        ∧ Forall (λ c, 0 < length c ≤ n) cs.
Proof.
  intros Hn. revert input.
  induction fuel as [|fuel IH]; intros input Hfuel; [lia|].
  destruct input as [|c input]; [by exists []|].
  cbn [chunks].
  pose proof (take_line_length n (c :: input)) as Hle.
  pose proof (take_line_app n (c :: input)) as Happ.
  assert (0 < length (take_line n (c :: input)).1) as Hpos.
  { destruct n; [lia|]. apply take_line_progress. }
  destruct (take_line n (c :: input)) as [got rest]. cbn [fst snd] in *.
  destruct (IH rest) as (cs & -> & Hcat & Hall).
  { apply (f_equal length) in Happ. rewrite length_app in Happ. lia. }
  exists (got :: cs). csimpl. split; [done|]. split; [by rewrite Hcat|].
  constructor; [lia|done].
Qed.

Lemma shown_no_nul cs : NUL ∉ concat cs → shown cs = concat cs.
Proof.
  unfold shown. induction cs as [|c cs IH]; csimpl; [done|].
  intros [? ?]%not_elem_of_app. by rewrite before_nul_id, IH.
Qed.

Lemma lines_nil t : lines t = [] → t = [].
Proof.
  destruct t as [|c t]; [done|]. simpl.
  case_decide; [done|]. by destruct (lines t).
Qed.

(** A first line that fits is what [fgets] takes. *)
Lemma take_line_first n input l ls :
  lines input = l :: ls → length l ≤ n →
  take_line n input = (l, concat ls) ∧ lines (concat ls) = ls.
Proof.
  revert n l ls. induction input as [|c input IH]; intros n l ls; [done|].
  simpl. case_decide as Hc.
  - intros [= <- <-] Hn. destruct n; [simpl in Hn; lia|]. simpl.
    rewrite decide_True by done.
    assert (concat (lines input) = input) as Hcat.
    { clear. induction input as [|c input IH]; [done|]. simpl.
      case_decide; csimpl; [by rewrite IH|].
      destruct (lines input) as [|l ls] eqn:Hl; csimpl.
      - by apply lines_nil in Hl as ->.
      - simpl in IH. by rewrite IH. }
    by rewrite Hcat.
  - destruct (lines input) as [|l' ls'] eqn:Hl.
    + intros [= <- <-] Hn. apply lines_nil in Hl as ->.
      destruct n; [simpl in Hn; lia|]. simpl. rewrite decide_False by done.
      by destruct n.
    + intros [= <- <-] Hn. destruct n; [simpl in Hn; lia|]. simpl in *.
      rewrite decide_False by done.
      destruct (IH n l' ls' eq_refl) as [-> ?]; [lia|]. done.
Qed.

(** When every line fits in a chunk, the chunks are the lines. *)
Lemma chunks_lines fuel n input :
  Forall (λ l, length l ≤ n) (lines input) → length input < fuel →
  chunks fuel n input = Ok (lines input).
Proof.
  revert input. induction fuel as [|fuel IH]; intros input Hfit Hfuel; [lia|].
  destruct input as [|c input]; [done|].
  destruct (lines (c :: input)) as [|l ls] eqn:Hl;
    [by apply lines_nil in Hl|].
  apply Forall_cons in Hfit as [Hfirst Hrest].
  destruct (take_line_first n (c :: input) l ls Hl Hfirst) as [Htake Hls].
  cbn [chunks]. rewrite Htake.
  pose proof (take_line_app n (c :: input)) as Happ.
  rewrite Htake in Happ. cbn [fst snd] in Happ.
  assert (0 < length l).
  { destruct l; [|simpl; lia]. simpl in Hl. case_decide; [done|].
    by destruct (lines input). }
  rewrite IH; [by rewrite Hls|by rewrite Hls|].
  apply (f_equal length) in Happ. rewrite length_app in Happ. simpl in *. lia.
Qed.
End Stdio.

(** ** The file printer *)

(** The file printer on a file without terminator bytes: it writes the
    content and nothing else, and leaves the rest of the state as it was. *)
Lemma print_file_content_text fuel path name content w :
  cstr path = Ok name → files w !! name = Some content →
  NUL ∉ content → length content < fuel →
  print_file_content fuel path w
  = Ok (World (files w) (streams w) (stdout w ++ content) (stderr w)).
Proof.
  intros Hpath Hfile Hnul Hfuel.
  rewrite (print_file_content_found _ _ name content) by done.
  destruct (chunks_total fuel 255 content) as (cs & -> & Hcat & _); [lia|done|].
  csimpl. rewrite shown_no_nul by (by rewrite Hcat). by rewrite Hcat.
Qed.

(** C2, as amended. If the target file exists, holds no terminator byte and
    each of its lines, newline included, fits in a 255-character chunk (as
    do the two lines of the file that reads hello, world), then what the
    file printer adds to standard output, after the label lines already
    there, is the file content exactly; the chunks written are the lines of
    the file, one per read. *)
Theorem print_file_content_echoes_lines
    (fuel : nat) (path : char_array) (name content : list ascii) (w : world) :
  cstr path = Ok name →
  files w !! name = Some content →
  NUL ∉ content →
  Forall (λ l, length l ≤ 255) (lines content) →
  length content < fuel →
  print_file_content fuel path w
  = Ok (World (files w) (streams w) (stdout w ++ content) (stderr w))
  ∧ chunks fuel 255 content = Ok (lines content).
Proof.
  intros Hpath Hfile Hnul Hfit Hfuel. split.
  - by apply (print_file_content_text _ _ name).
  - by apply chunks_lines.
Qed.

Lemma print_file_content_echoes_lines_witness :
  let labels := literal "Runtime directory: /tmp\nOpen file at path: /tmp/example.txt\n" in
  let w := World {[ chars "/tmp/example.txt" := hello ]} ∅ labels [] in
  print_file_content 13 (c_str (chars "/tmp/example.txt")) w
  = Ok (World (files w) (streams w) (stdout w ++ hello) (stderr w))
  ∧ chunks 13 255 hello = Ok (lines hello).
Proof.
  intros labels w.
  apply (print_file_content_echoes_lines 13 (c_str (chars "/tmp/example.txt"))
           (chars "/tmp/example.txt") hello w).
  - vm_compute. reflexivity.
  - vm_compute. reflexivity.
  - by_evaluation.
  - by_evaluation.
  - vm_compute. lia.
Defined.

Example lines_of_hello : lines hello = [literal "hello\n"; literal "world\n"].
Proof. reflexivity. Qed.

(** C2 as stated fails on a file with a terminator byte in a line: the line
    fits in a chunk, and [printf] shows the chunk only up to that byte. *)
Lemma print_file_content_stops_at_nul :
  let content := ["a"; NUL; "b"; LF] in
  let w := World {[ chars "/tmp/example.txt" := content ]} ∅ [] [] in
  Forall (λ l, length l ≤ 255) (lines content)
  ∧ print_file_content 5 (c_str (chars "/tmp/example.txt")) w
    = Ok (World (files w) (streams w) ["a"] [])
  ∧ ["a"] ≠ stdout w ++ content.
Proof.
  split; [by_evaluation|]. split; [|done].
  rewrite (print_file_content_found _ _ (chars "/tmp/example.txt") ["a"; NUL; "b"; LF]);
    reflexivity.
Qed.

(** C3. If the target file cannot be opened, the file printer appends to
    standard error the one line that reads Failed to open file, a colon, a
    space and the path, ended by a newline; standard output, the open
    streams and the files are as they were. *)
Theorem print_file_content_open_failure
    (fuel : nat) (path : char_array) (name : list ascii) (w : world) :
  cstr path = Ok name →
  files w !! name = None →
  print_file_content fuel path w
  = Ok (World (files w) (streams w) (stdout w)
          (stderr w ++ chars "Failed to open file: " ++ name ++ [LF])).
Proof.
  intros Hpath Hfile.
  by rewrite (print_file_content_missing _ _ name).
Qed.

Lemma print_file_content_open_failure_witness :
  print_file_content 0 (c_str (chars "/tmp/example.txt")) (World ∅ ∅ [] [])
  = Ok (World ∅ ∅ [] (literal "Failed to open file: /tmp/example.txt\n")).
Proof.
  apply (print_file_content_open_failure 0 _ (chars "/tmp/example.txt")
           (World ∅ ∅ [] [])).
  - reflexivity.
  - reflexivity.
Defined.

(** C8. When the file opens, the stream that [fopen] hands out is a new
    entry of the table of open streams, and by the time the file printer
    returns, after the read loop met the end of input, the table is what it
    was before the call: the stream has been closed and nothing else was
    opened. *)
Theorem print_file_content_releases_stream
    (fuel : nat) (path : char_array) (name content : list ascii) (w : world) :
  cstr path = Ok name →
  files w !! name = Some content →
  length content < fuel →
  ∃ file w1 w',
    fopen path "r" w = Ok (Some file, w1)
    ∧ streams w !! file = None
    ∧ streams w1 !! file = Some content
    ∧ print_file_content fuel path w = Ok w'
    ∧ streams w' = streams w
    ∧ streams w' !! file = None.
Proof.
  intros Hpath Hfile Hfuel.
  assert (streams w !! fresh (dom (streams w)) = None) as Hfresh
    by (apply not_elem_of_dom, is_fresh).
  rewrite (print_file_content_found _ _ name content) by done.
  destruct (chunks_total fuel 255 content) as (cs & -> & _ & _); [lia|done|].
  unfold fopen. rewrite Hpath. csimpl. rewrite Hfile.
  eexists _, _, _. split; [done|]. split; [done|].
  split; [by apply lookup_insert_eq|]. done.
Qed.

Lemma print_file_content_releases_stream_witness :
  let w := World {[ chars "/tmp/example.txt" := literal "hello\nworld\n" ]}
             {[ 0 := chars "another stream" ]} [] [] in
  ∃ file w1 w',
    fopen (c_str (chars "/tmp/example.txt")) "r" w = Ok (Some file, w1)
    ∧ streams w !! file = None
    ∧ streams w1 !! file = Some (literal "hello\nworld\n")
    ∧ print_file_content 13 (c_str (chars "/tmp/example.txt")) w = Ok w'
    ∧ streams w' = streams w
    ∧ streams w' !! file = None.
Proof.
  apply (print_file_content_releases_stream 13 _ (chars "/tmp/example.txt")).
  - reflexivity.
  - reflexivity.
  - vm_compute. lia.
Defined.

(** C10. On a file without terminator byte the file printer reproduces the
    content whatever the length of its lines: the reads deliver non-empty
    chunks of at most 255 characters whose concatenation is the content, and
    standard output receives exactly the content. *)
Theorem print_file_content_long_lines
    (fuel : nat) (path : char_array) (name content : list ascii) (w : world) :
  cstr path = Ok name →
  files w !! name = Some content →
  NUL ∉ content →
  length content < fuel →
  print_file_content fuel path w
  = Ok (World (files w) (streams w) (stdout w ++ content) (stderr w))
  ∧ ∃ cs, chunks fuel 255 content = Ok cs
          ∧ concat cs = content
          ∧ Forall (λ c, 0 < length c ≤ 255) cs.
Proof.
  intros Hpath Hfile Hnul Hfuel. split.
  - by apply (print_file_content_text _ _ name).
  - apply chunks_total; [lia|done].
Qed.

Lemma print_file_content_long_lines_witness :
  let content := replicate 600 "x" ++ [LF] in
  let w := World {[ chars "/tmp/example.txt" := content ]} ∅ [] [] in
  print_file_content 602 (c_str (chars "/tmp/example.txt")) w
  = Ok (World (files w) (streams w) content [])
  ∧ ∃ cs, chunks 602 255 content = Ok cs
          ∧ concat cs = content
          ∧ Forall (λ c, 0 < length c ≤ 255) cs.
Proof.
  apply (print_file_content_long_lines 602 (c_str (chars "/tmp/example.txt"))
           (chars "/tmp/example.txt") (replicate 600 "x" ++ [LF])
           (World {[ chars "/tmp/example.txt" := replicate 600 "x" ++ [LF] ]} ∅ [] [])).
  - reflexivity.
  - reflexivity.
  - by_evaluation.
  - vm_compute. lia.
Defined.

(** The long line of the example above reaches [printf] in three pieces. *)
Example chunks_of_a_long_line :
  (λ cs : list (list ascii), length <$> cs)
    <$> chunks 602 255 (replicate 600 "x" ++ [LF]) = Ok [255; 255; 91].
Proof. reflexivity. Qed.

(** ** The program *)

Section Program.
Implicit Types (w : world) (s dir : char_array) (t d name : list ascii).

Lemma uninit_length n : length (uninit n) = n.
Proof. apply length_replicate. Qed.

Lemma not_elem_of_take_app n c d t : c ∉ d → c ∉ t → c ∉ take n (d ++ t).
Proof.
  intros Hd Ht Hin. assert (c ∈ d ++ t) as [?|?]%elem_of_app; [|done..].
  rewrite <- (take_drop n (d ++ t)). apply elem_of_app. by left.
Qed.

(** [snprintf] with the format of the target path. *)
Lemma snprintf_example s n dir d :
  cstr dir = Ok d → 0 < n → n ≤ length s →
  ∃ s', snprintf s n "%s/example.txt" dir = Ok s'
        ∧ cstr s' = Ok (take (n - 1) (d ++ chars "/example.txt"))
        ∧ length s' = length s.
Proof.
  intros Hdir Hn Hlen. pose proof Hdir as [Hnul _]%cstr_inv.
  unfold snprintf. rewrite Hdir. csimpl. rewrite decide_False by lia.
  change (d ++ _) with (d ++ chars "/example.txt").
  set (text := take (n - 1) (d ++ chars "/example.txt")).
  assert (length text ≤ n - 1) as Htext by (unfold text; rewrite length_take; lia).
  rewrite store_all_fits by (rewrite length_app; simpl; lia).
  eexists. split; [done|]. csimpl. rewrite fmap_app, <- app_assoc. csimpl. split.
  - apply cstr_spelled. apply not_elem_of_take_app; [done|by_evaluation].
  - rewrite length_app, length_fmap. simpl.
    rewrite length_drop, length_app. simpl. lia.
Qed.

Lemma fprintf_cstr (f : std) (fmt : string) s t w :
  cstr s = Ok t → fprintf f fmt s w = Ok (emit f (format (literal fmt) t) w).
Proof. intros Hs. unfold fprintf. by rewrite Hs. Qed.

(** A run of the program on an invocation path that fits in
    [path_buffer]: the label lines, then the file or the diagnostic. *)
Lemma main_runs fuel argc (arg0 : char_array) rest t w :
  cstr arg0 = Ok t → length t < 1024 →
  main fuel argc (arg0 :: rest) w =
  match files w !! target_path t with
  | Some content =>
      cs ← chunks fuel 255 content;
      Ok (0%Z, World (files w) (streams w)
                 (stdout w ++ label_lines t ++ shown cs) (stderr w))
  | None =>
      Ok (0%Z, World (files w) (streams w) (stdout w ++ label_lines t)
                 (stderr w ++ diagnostic (target_path t)))
  end.
Proof.
  intros Harg Hlen. unfold main.
  destruct (get_runtime_dir_fits argc arg0 rest t (uninit 1024)
              (Z.of_nat (sizeof (uninit 1024))) Harg)
    as (dir & -> & Hdir & _); [by rewrite uninit_length|].
  csimpl. unfold printf. rewrite (fprintf_cstr _ _ dir _ _ Hdir). csimpl.
  destruct (snprintf_example (uninit 1024) 1024 dir (runtime_dir t) Hdir)
    as (target & -> & Htarget & _); [lia|by rewrite uninit_length|].
  change (take (1024 - 1) _) with (target_path t) in Htarget.
  csimpl. rewrite (fprintf_cstr _ _ target _ _ Htarget). csimpl.
  destruct w as [fs ss out err]. unfold emit. csimpl.
  destruct (fs !! target_path t) as [content|] eqn:Hfile.
  - rewrite (print_file_content_found _ _ (target_path t) content) by done.
    csimpl. destruct (chunks fuel 255 content) as [cs| |]; csimpl; [|done..].
    do 3 f_equal. unfold label_lines.
    rewrite <- !app_assoc. csimpl. by rewrite <- !app_assoc.
  - rewrite (print_file_content_missing _ _ (target_path t)) by done.
    csimpl. do 3 f_equal. unfold label_lines.
    rewrite <- !app_assoc. csimpl. by rewrite <- !app_assoc.
Qed.

(** A run on a longer invocation path stops in the copy. *)
Lemma main_overruns fuel argc (arg0 : char_array) rest t w :
  cstr arg0 = Ok t → 1024 ≤ length t →
  main fuel argc (arg0 :: rest) w = UB (WritePast 1024).
Proof.
  intros Harg Hlen. unfold main, get_runtime_dir. csimpl.
  rewrite (strcpy_overrun _ _ t), uninit_length; [done..|].
  by rewrite uninit_length.
Qed.
End Program.

(** C5, as amended. For every resolved runtime directory [d], the target
    path that [snprintf] leaves in the 1024-byte [example_buffer] is the
    first 1023 characters of [d], a single separator and the fixed file
    name; for every [d] of at most 1011 characters that is the whole of it,
    so the directory /tmp gives /tmp/example.txt. *)
Theorem snprintf_target_path
    (path_buffer example_buffer : char_array) (d : list ascii) :
  cstr path_buffer = Ok d →
  length example_buffer = 1024 →
  (length d ≤ 1011 →
   snprintf example_buffer 1024 "%s/example.txt" path_buffer ≫= cstr
   = Ok (d ++ "/" :: chars "example.txt"))
  ∧ snprintf example_buffer 1024 "%s/example.txt" path_buffer ≫= cstr
    = Ok (take 1023 (d ++ "/" :: chars "example.txt")).
Proof.
  intros Hdir Hlen.
  destruct (snprintf_example example_buffer 1024 path_buffer d Hdir)
    as (target & -> & Htarget & _); [lia..|].
  csimpl. rewrite Htarget. split; [|done].
  intros Hd. rewrite take_ge; [done|].
  rewrite length_app. simpl. lia.
Qed.

Lemma snprintf_target_path_witness :
  snprintf (uninit 1024) 1024 "%s/example.txt" (c_str (chars "/tmp")) ≫= cstr
  = Ok (chars "/tmp/example.txt").
Proof.
  destruct (snprintf_target_path (c_str (chars "/tmp")) (uninit 1024) (chars "/tmp"))
    as [Hshort _]; [reflexivity..|].
  apply Hshort. vm_compute. lia.
Defined.

(** C5 as stated fails on a long directory: the invocation path made of
    1012 letters, a separator and a name fits in [path_buffer], its
    directory is the 1012 letters, and the target path loses its last
    character. *)
Lemma target_path_cut_short :
  let d := replicate 1012 "a" in
  let argv := [c_str (d ++ chars "/app")] in
  get_runtime_dir 1 argv (uninit 1024) 1024 ≫= cstr = Ok d
  ∧ (get_runtime_dir 1 argv (uninit 1024) 1024
       ≫= snprintf (uninit 1024) 1024 "%s/example.txt") ≫= cstr
    = Ok (d ++ chars "/example.tx")
  ∧ d ++ chars "/example.tx" ≠ d ++ chars "/example.txt".
Proof.
  split; [vm_compute; reflexivity|]. split; [vm_compute; reflexivity|].
  intros Heq. apply (f_equal length) in Heq. vm_compute in Heq. discriminate.
Qed.

(** No path through [main] returns anything but 0. *)
Lemma main_returns_zero fuel argc argv w c w' :
  main fuel argc argv w = Ok (c, w') → c = 0%Z.
Proof.
  unfold main.
  destruct (get_runtime_dir _ _ _ _) as [path_buffer| |]; csimpl; [|done..].
  destruct (printf _ _ _) as [w1| |]; csimpl; [|done..].
  destruct (snprintf _ _ _ _) as [example_buffer| |]; csimpl; [|done..].
  destruct (fprintf _ _ _ _) as [w2| |]; csimpl; [|done..].
  destruct (print_file_content _ _ _) as [w3| |]; csimpl; [|done..].
  by intros [= <- _].
Qed.

(** C6, as amended. For every input whose invocation path fits in the
    1024-byte [path_buffer], that is has at most 1023 characters, the
    process returns status 0, whether the target file opens or not; and on
    no input at all does [main] return another status. *)
Theorem main_exit_status
    (fuel : nat) (argc : Z) (arg0 : char_array) (rest : list char_array)
    (t : list ascii) (w : world) :
  cstr arg0 = Ok t →
  length t < 1024 →
  (∀ content, files w !! target_path t = Some content → length content < fuel) →
  (∃ w', main fuel argc (arg0 :: rest) w = Ok (0%Z, w'))
  ∧ (∀ fuel' argc' argv' w0 c w'',
       main fuel' argc' argv' w0 = Ok (c, w'') → c = 0%Z).
Proof.
  intros Harg Hlen Hfuel. split; [|apply main_returns_zero].
  rewrite (main_runs _ _ _ _ t) by done.
  destruct (files w !! target_path t) as [content|]; [|by eexists].
  destruct (chunks_total fuel 255 content) as (cs & -> & _ & _);
    [lia|by apply Hfuel|]. by eexists.
Qed.

Lemma main_exit_status_witness :
  (∃ w', main 0 1 [c_str (chars "/tmp/app")] (World ∅ ∅ [] []) = Ok (0%Z, w'))
  ∧ (∀ fuel' argc' argv' w0 c w'',
       main fuel' argc' argv' w0 = Ok (c, w'') → c = 0%Z).
Proof.
  apply (main_exit_status 0 1 (c_str (chars "/tmp/app")) [] (chars "/tmp/app")
           (World ∅ ∅ [] [])).
  - reflexivity.
  - vm_compute. lia.
  - intros content Hfile. vm_compute in Hfile. discriminate.
Defined.

(** C6 as stated fails on an invocation path of 1024 characters: the run
    stops in the copy into [path_buffer] and returns no status. *)
Lemma main_long_path_no_status :
  main 1 1 [c_str (replicate 1024 "a")] (World ∅ ∅ [] []) = UB (WritePast 1024)
  ∧ ¬ ∃ w', main 1 1 [c_str (replicate 1024 "a")] (World ∅ ∅ [] []) = Ok (0%Z, w').
Proof.
  assert (main 1 1 [c_str (replicate 1024 "a")] (World ∅ ∅ [] [])
          = UB (WritePast 1024)) as Hrun.
  { apply (main_overruns _ _ _ _ (replicate 1024 "a")).
    - vm_compute. reflexivity.
    - vm_compute. lia. }
  split; [exact Hrun|]. intros [w' Hw'].
  pose proof (eq_trans (eq_sym Hrun) Hw') as Habs. discriminate Habs.
Qed.

(** C9. A run that completes writes to the two output streams what is
    determined by [argv[0]] and by the content of the target file, if any:
    a run with the same two, from any other state and whatever its other
    arguments, completes with the same status and the same output on both
    streams. The run leaves the files and the open streams as it found
    them, so running again from the state it left repeats the output. *)
Theorem main_deterministic
    (fuel : nat) (argc1 argc2 : Z) (a1 a2 : char_array)
    (rest1 rest2 : list char_array) (t : list ascii)
    (w1 w2 w1' : world) (c : Z) :
  cstr a1 = Ok t →
  cstr a2 = Ok t →
  files w1 !! target_path t = files w2 !! target_path t →
  main fuel argc1 (a1 :: rest1) w1 = Ok (c, w1') →
  ∃ out err,
    w1' = World (files w1) (streams w1) (stdout w1 ++ out) (stderr w1 ++ err)
    ∧ main fuel argc2 (a2 :: rest2) w2
      = Ok (c, World (files w2) (streams w2) (stdout w2 ++ out) (stderr w2 ++ err))
    ∧ main fuel argc1 (a1 :: rest1) w1'
      = Ok (c, World (files w1) (streams w1) (stdout w1' ++ out) (stderr w1' ++ err)).
Proof.
  intros Ha1 Ha2 Hfiles Hrun.
  destruct (decide (length t < 1024)) as [Hlen|Hlen]; last first.
  { rewrite (main_overruns _ _ _ _ t) in Hrun by (done || lia). done. }
  rewrite (main_runs _ _ _ _ t) in Hrun by done.
  rewrite (main_runs _ _ a2 _ t), <- Hfiles by done.
  destruct (files w1 !! target_path t) as [content|] eqn:Hfile.
  - destruct (chunks fuel 255 content) as [cs| |] eqn:Hcs; [|done..].
    injection Hrun as <- <-. exists (label_lines t ++ shown cs), [].
    rewrite (main_runs _ _ _ _ t) by done. cbn [files streams stdout stderr].
    rewrite Hfile, Hcs. cbn [mbind res_bind]. by rewrite !app_nil_r.
  - injection Hrun as <- <-.
    exists (label_lines t), (diagnostic (target_path t)).
    rewrite (main_runs _ _ _ _ t) by done. cbn [files streams stdout stderr].
    by rewrite Hfile.
Qed.

Lemma main_deterministic_witness :
  ∃ out err,
    hello_after
    = World (files hello_before) (streams hello_before)
        (stdout hello_before ++ out) (stderr hello_before ++ err)
    ∧ main 13 2 [tmp_app; c_str (chars "-v")] busy_state
      = Ok (0%Z, World (files busy_state) (streams busy_state)
                   (stdout busy_state ++ out) (stderr busy_state ++ err))
    ∧ main 13 1 [tmp_app] hello_after
      = Ok (0%Z, World (files hello_before) (streams hello_before)
                   (stdout hello_after ++ out) (stderr hello_after ++ err)).
Proof.
  apply (main_deterministic 13 1 2 tmp_app tmp_app [] [c_str (chars "-v")]
           (chars "/tmp/app") hello_before busy_state hello_after 0%Z).
  - vm_compute. reflexivity.
  - vm_compute. reflexivity.
  - vm_compute. reflexivity.
  - vm_compute. reflexivity.
Defined.

(** ** The runs of the specification's examples *)

Example main_hello :
  main 13 1 [tmp_app] hello_before = Ok (0%Z, hello_after).
Proof. vm_compute. reflexivity. Qed.

Example main_missing_file :
  main 0 1 [tmp_app] nothing_there
  = Ok (0%Z, World ∅ ∅
               (literal "Runtime directory: /tmp\nOpen file at path: /tmp/example.txt\n")
               (literal "Failed to open file: /tmp/example.txt\n")).
Proof. vm_compute. reflexivity. Qed.

Example main_plain_name :
  main 0 1 [c_str (chars "app")] nothing_there
  = Ok (0%Z, World ∅ ∅
               (literal "Runtime directory: app\nOpen file at path: app/example.txt\n")
               (literal "Failed to open file: app/example.txt\n")).
Proof. vm_compute. reflexivity. Qed.

Example main_in_root :
  main 0 1 [c_str (chars "/app")] nothing_there
  = Ok (0%Z, World ∅ ∅
               (literal "Runtime directory: \nOpen file at path: /example.txt\n")
               (literal "Failed to open file: /example.txt\n")).
Proof. vm_compute. reflexivity. Qed.

Example main_without_arguments :
  main 0 0 [] nothing_there = UB NullPointer.
Proof. reflexivity. Qed.

(** * Further properties of the resolver *)

(** Past a string written at the front of an array, the cells are those
    the array had. *)
Lemma spelled_lookup_beyond (t : list ascii) (b : char_array) (j : nat) :
  length t < j →
  ((Some <$> t) ++ Some NUL :: drop (S (length t)) b) !! j = b !! j.
Proof.
  intros Hj. rewrite lookup_app_r by (rewrite length_fmap; lia).
  rewrite length_fmap. destruct (j - length t) as [|k] eqn:Hk; [lia|].
  simpl. rewrite lookup_drop. f_equal. lia.
Qed.


(** X1. When the invocation path fits, [get_runtime_dir] leaves in [buffer] the
    resolved directory; the array keeps its capacity, and the cells past
    the copied path and its terminator are not written. *)
Theorem get_runtime_dir_resolves
    (argc : Z) (arg0 : char_array) (rest : list char_array) (t : list ascii)
    (buffer : char_array) (buffer_size : Z) :
  cstr arg0 = Ok t →
  length t < length buffer →
  ∃ dir,
    get_runtime_dir argc (arg0 :: rest) buffer buffer_size = Ok dir
    ∧ cstr dir = Ok (runtime_dir t)
    ∧ length dir = length buffer
    ∧ ∀ j, length t < j → dir !! j = buffer !! j.
Proof.
  intros Harg Hlen. pose proof Harg as [Hn _]%cstr_inv.
  unfold get_runtime_dir. csimpl. rewrite (strcpy_fits _ _ t) by done. csimpl.
  set (b0 := (Some <$> t) ++ Some NUL :: drop (S (length t)) buffer).
  destruct (parent_dir_cstr b0 t) as (dir & Hdir & Hstr & Hl);
    [by apply cstr_spelled|].
  exists dir. split; [done|]. split; [done|]. split.
  - rewrite Hl. unfold b0. rewrite length_app, length_fmap. simpl.
    rewrite length_drop. lia.
  - intros j Hj. unfold b0 in Hdir. rewrite parent_dir_spelled in Hdir by done.
    injection Hdir as <-. fold b0.
    destruct (before_last "/" t) as [d|] eqn:Hb.
    + apply before_last_Some in Hb as (seg & Ht & _).
      assert (length d < length t) by (rewrite Ht, length_app; simpl; lia).
      rewrite spelled_lookup_beyond by lia.
      unfold b0. by rewrite spelled_lookup_beyond.
    + unfold b0. by rewrite spelled_lookup_beyond.
Qed.

Lemma get_runtime_dir_resolves_witness :
  ∃ dir,
    get_runtime_dir 1 [tmp_app] (uninit 16) 16 = Ok dir
    ∧ cstr dir = Ok (runtime_dir (chars "/tmp/app"))
    ∧ length dir = length (uninit 16)
    ∧ ∀ j, length (chars "/tmp/app") < j → dir !! j = uninit 16 !! j.
Proof.
  apply (get_runtime_dir_resolves 1 tmp_app [] (chars "/tmp/app") (uninit 16) 16).
  - vm_compute. reflexivity.
  - vm_compute. lia.
Defined.

(** X2. Each call of [parent_dir] removes one more segment: on a path with two
    separators or more, two calls leave what precedes the last but one. *)
Theorem parent_dir_twice
    (path : char_array) (d seg1 seg2 : list ascii) :
  cstr path = Ok (d ++ "/" :: seg1 ++ "/" :: seg2) →
  "/" ∉ seg1 →
  "/" ∉ seg2 →
  (parent_dir path ≫= parent_dir) ≫= cstr = Ok d.
Proof.
  intros Hpath H1 H2.
  destruct (parent_dir_at_last_separator path (d ++ "/" :: seg1) seg2)
    as [-> Hfirst]; [by rewrite <- app_assoc|done|]. csimpl.
  destruct (parent_dir_at_last_separator _ d seg1 Hfirst H1) as [-> Hsecond].
  done.
Qed.

Lemma parent_dir_twice_witness :
  (parent_dir (c_str (chars "/usr/local/bin/app")) ≫= parent_dir) ≫= cstr
  = Ok (chars "/usr/local").
Proof.
  apply (parent_dir_twice (c_str (chars "/usr/local/bin/app"))
           (chars "/usr/local") (chars "bin") (chars "app")).
  - vm_compute. reflexivity.
  - by_evaluation.
  - by_evaluation.
Defined.

(** X3. The truncation loses nothing: the removed segment still follows the
    new terminator in the array, and writing the separator back over that
    terminator restores the array cell for cell. *)
Theorem parent_dir_reversible
    (path : char_array) (d seg : list ascii) :
  cstr path = Ok (d ++ "/" :: seg) →
  "/" ∉ seg →
  ∃ path',
    parent_dir path = Ok path'
    ∧ cstr (drop (S (length d)) path') = Ok seg
    ∧ store path' (length d) "/" = Ok path.
Proof.
  intros Hpath Hseg.
  destruct (parent_dir_at_last_separator path d seg Hpath Hseg) as [Hpd _].
  exists (<[length d := Some NUL]> path). split; [done|].
  apply cstr_inv in Hpath as (Hn & tl & ->).
  apply not_elem_of_app in Hn as [Hd [_ Hs]%not_elem_of_cons].
  assert (length d < length ((Some <$> d ++ "/" :: seg) ++ Some NUL :: tl)) as Hlt.
  { rewrite length_app, length_fmap, length_app. simpl. lia. }
  split.
  - rewrite drop_insert_lt by lia.
    rewrite fmap_app, <- app_assoc. csimpl.
    rewrite (cons_middle (Some "/")), app_assoc.
    rewrite drop_app_length' by (rewrite length_app, length_fmap; simpl; lia).
    by apply cstr_spelled.
  - unfold store. rewrite length_insert, decide_True by done. f_equal.
    rewrite list_insert_insert_eq. apply list_insert_id.
    rewrite fmap_app, <- app_assoc.
    rewrite lookup_app_r by (by rewrite length_fmap).
    by rewrite length_fmap, Nat.sub_diag.
Qed.

Lemma parent_dir_reversible_witness :
  ∃ path',
    parent_dir (c_str (chars "/usr/local/bin/app")) = Ok path'
    ∧ cstr (drop (S (length (chars "/usr/local/bin"))) path') = Ok (chars "app")
    ∧ store path' (length (chars "/usr/local/bin")) "/"
      = Ok (c_str (chars "/usr/local/bin/app")).
Proof.
  apply (parent_dir_reversible (c_str (chars "/usr/local/bin/app"))
           (chars "/usr/local/bin") (chars "app")).
  - vm_compute. reflexivity.
  - by_evaluation.
Defined.



(** * Further properties of the file printer *)

Lemma before_nul_sublist (t : list ascii) : before_nul t `sublist_of` t.
Proof.
  induction t as [|c t IH]; csimpl; [constructor|].
  case_decide; [apply sublist_nil_l|by constructor].
Qed.

Lemma shown_sublist (cs : list (list ascii)) : shown cs `sublist_of` concat cs.
Proof.
  unfold shown. induction cs as [|c cs IH]; csimpl; [constructor|].
  apply sublist_app; [apply before_nul_sublist|done].
Qed.

Lemma shown_has_no_nul (cs : list (list ascii)) : NUL ∉ shown cs.
Proof.
  unfold shown. induction cs as [|c cs IH]; csimpl; [apply not_elem_of_nil|].
  apply not_elem_of_app. split; [apply before_nul_no_nul|done].
Qed.

(** X5. On a file of any content, terminator bytes included, the file printer
    comes to its end without touching anything but standard output, where
    it adds characters of the file in their order, never a terminator byte;
    what it adds is the whole content exactly when the content has no
    terminator byte. *)
Theorem print_file_content_any_content
    (fuel : nat) (path : char_array) (name content : list ascii) (w : world) :
  cstr path = Ok name →
  files w !! name = Some content →
  length content < fuel →
  ∃ out,
    print_file_content fuel path w
    = Ok (World (files w) (streams w) (stdout w ++ out) (stderr w))
    ∧ out `sublist_of` content
    ∧ (NUL ∉ out)
    ∧ (out = content ↔ NUL ∉ content).
Proof.
  intros Hpath Hfile Hfuel.
  rewrite (print_file_content_found _ _ name content) by done.
  destruct (chunks_total fuel 255 content) as (cs & -> & Hcat & _); [lia|done|].
  exists (shown cs). csimpl. split; [done|]. split; [|split].
  - rewrite <- Hcat. apply shown_sublist.
  - apply shown_has_no_nul.
  - split.
    + intros <-. apply shown_has_no_nul.
    + intros Hn. rewrite <- Hcat in Hn |- *. by apply shown_no_nul.
Qed.

Lemma print_file_content_any_content_witness :
  ∃ out,
    print_file_content 5 (c_str (chars "f"))
      (World {[ chars "f" := ["a"; NUL; "b"; LF] ]} ∅ [] [])
    = Ok (World (files (World {[ chars "f" := ["a"; NUL; "b"; LF] ]} ∅ [] []))
            (streams (World {[ chars "f" := ["a"; NUL; "b"; LF] ]} ∅ [] []))
            (stdout (World {[ chars "f" := ["a"; NUL; "b"; LF] ]} ∅ [] []) ++ out)
            (stderr (World {[ chars "f" := ["a"; NUL; "b"; LF] ]} ∅ [] [])))
    ∧ out `sublist_of` ["a"; NUL; "b"; LF]
    ∧ (NUL ∉ out)
    ∧ (out = ["a"; NUL; "b"; LF] ↔ NUL ∉ ["a"; NUL; "b"; LF]).
Proof.
  apply (print_file_content_any_content 5 (c_str (chars "f")) (chars "f")
           ["a"; NUL; "b"; LF]
           (World {[ chars "f" := ["a"; NUL; "b"; LF] ]} ∅ [] [])).
  - vm_compute. reflexivity.
  - vm_compute. reflexivity.
  - vm_compute. lia.
Defined.

(** X6. On an empty file the file printer changes nothing at all: the first
    read meets the end of input, and the stream is closed again. *)
Theorem print_file_content_empty_file
    (fuel : nat) (path : char_array) (name : list ascii) (w : world) :
  cstr path = Ok name →
  files w !! name = Some [] →
  0 < fuel →
  print_file_content fuel path w = Ok w.
Proof.
  intros Hpath Hfile Hfuel.
  rewrite (print_file_content_found _ _ name []) by done.
  destruct fuel as [|fuel]; [lia|]. csimpl.
  destruct w as [fs ss out err]. csimpl. by rewrite app_nil_r.
Qed.

Lemma print_file_content_empty_file_witness :
  print_file_content 1 (c_str (chars "f")) (World {[ chars "f" := [] ]} ∅ [] [])
  = Ok (World {[ chars "f" := [] ]} ∅ [] []).
Proof.
  apply (print_file_content_empty_file 1 (c_str (chars "f")) (chars "f")
           (World {[ chars "f" := [] ]} ∅ [] [])).
  - vm_compute. reflexivity.
  - vm_compute. reflexivity.
  - lia.
Defined.

(** X7. The file printer looks at its argument only up to the terminator: two
    arrays that hold the same path give the same outcome, whatever their
    capacities and whatever lies after the terminator. *)
Theorem print_file_content_reads_string_only
    (fuel : nat) (path1 path2 : char_array) (name : list ascii) (w : world) :
  cstr path1 = Ok name →
  cstr path2 = Ok name →
  print_file_content fuel path1 w = print_file_content fuel path2 w.
Proof.
  intros H1 H2. destruct (files w !! name) as [content|] eqn:Hfile.
  - by rewrite !(print_file_content_found _ _ name content).
  - by rewrite !(print_file_content_missing _ _ name).
Qed.

Lemma print_file_content_reads_string_only_witness :
  print_file_content 13 (c_str (chars "/tmp/example.txt")) hello_before
  = print_file_content 13
      (c_str (chars "/tmp/example.txt") ++ (Some <$> chars "left over") ++ uninit 3)
      hello_before.
Proof.
  apply (print_file_content_reads_string_only 13 _ _ (chars "/tmp/example.txt")).
  - vm_compute. reflexivity.
  - vm_compute. reflexivity.
Defined.

(** * Further properties of the program *)

(** A run whose resolved directory is [d], short enough for the target
    path to fit: what it writes when the file opens and when it does not. *)
Lemma main_in_dir fuel argc (arg0 : char_array) rest (t d : list ascii) (w : world) :
  cstr arg0 = Ok t → length t < 1024 →
  runtime_dir t = d → length d ≤ 1011 →
  (∀ content,
     files w !! (d ++ chars "/example.txt") = Some content →
     NUL ∉ content → length content < fuel →
     main fuel argc (arg0 :: rest) w
     = Ok (0%Z, World (files w) (streams w)
                  (stdout w ++ labels_for d (d ++ chars "/example.txt") ++ content)
                  (stderr w)))
  ∧ (files w !! (d ++ chars "/example.txt") = None →
     main fuel argc (arg0 :: rest) w
     = Ok (0%Z, World (files w) (streams w)
                  (stdout w ++ labels_for d (d ++ chars "/example.txt"))
                  (stderr w ++ diagnostic (d ++ chars "/example.txt")))).
Proof.
  intros Harg Hlen Hdir Hd.
  assert (target_path t = d ++ chars "/example.txt") as Htarget.
  { unfold target_path. rewrite Hdir. apply take_ge.
    rewrite length_app. simpl. lia. }
  assert (label_lines t = labels_for d (d ++ chars "/example.txt")) as Hlabels.
  { unfold label_lines, labels_for. by rewrite Htarget, Hdir. }
  rewrite (main_runs _ _ _ _ t) by done. rewrite Htarget, Hlabels. split.
  - intros content -> Hnul Hfuel.
    destruct (chunks_total fuel 255 content) as (cs & -> & Hcat & _); [lia|done|].
    csimpl. rewrite shown_no_nul by (by rewrite Hcat). by rewrite Hcat.
  - by intros ->.
Qed.

(** X8. A run started through a path with a separator, the directory part [d]
    short enough for the target path to fit: standard output receives the
    two label lines, naming [d] and the file [example.txt] in [d], then the
    content of that file if it opens (and holds no terminator byte);
    otherwise standard error receives the diagnostic for that file. The
    status is 0 either way, and files and streams are as before. *)
Theorem main_with_separator
    (fuel : nat) (argc : Z) (arg0 : char_array) (rest : list char_array)
    (d seg : list ascii) (w : world) :
  cstr arg0 = Ok (d ++ "/" :: seg) →
  "/" ∉ seg →
  length (d ++ "/" :: seg) < 1024 →
  length d ≤ 1011 →
  (∀ content,
     files w !! (d ++ chars "/example.txt") = Some content →
     NUL ∉ content → length content < fuel →
     main fuel argc (arg0 :: rest) w
     = Ok (0%Z, World (files w) (streams w)
                  (stdout w ++ labels_for d (d ++ chars "/example.txt") ++ content)
                  (stderr w)))
  ∧ (files w !! (d ++ chars "/example.txt") = None →
     main fuel argc (arg0 :: rest) w
     = Ok (0%Z, World (files w) (streams w)
                  (stdout w ++ labels_for d (d ++ chars "/example.txt"))
                  (stderr w ++ diagnostic (d ++ chars "/example.txt")))).
Proof.
  intros Harg Hseg Hlen Hd.
  apply (main_in_dir fuel argc arg0 rest (d ++ "/" :: seg) d w); try done.
  unfold runtime_dir. by rewrite before_last_app.
Qed.

Lemma main_with_separator_witness :
  (∀ content,
     files hello_before !! (chars "/tmp" ++ chars "/example.txt") = Some content →
     NUL ∉ content → length content < 13 →
     main 13 1 [tmp_app] hello_before
     = Ok (0%Z, World (files hello_before) (streams hello_before)
                  (stdout hello_before
                   ++ labels_for (chars "/tmp") (chars "/tmp" ++ chars "/example.txt")
                   ++ content)
                  (stderr hello_before)))
  ∧ (files hello_before !! (chars "/tmp" ++ chars "/example.txt") = None →
     main 13 1 [tmp_app] hello_before
     = Ok (0%Z, World (files hello_before) (streams hello_before)
                  (stdout hello_before
                   ++ labels_for (chars "/tmp") (chars "/tmp" ++ chars "/example.txt"))
                  (stderr hello_before
                   ++ diagnostic (chars "/tmp" ++ chars "/example.txt")))).
Proof.
  apply (main_with_separator 13 1 tmp_app [] (chars "/tmp") (chars "app")
           hello_before).
  - vm_compute. reflexivity.
  - by_evaluation.
  - vm_compute. lia.
  - vm_compute. lia.
Defined.

(** X9. A run started through a bare name, without separator (as when the
    shell found the program on its search path): the name itself is taken
    for the directory, and the file sought is [example.txt] under that
    name. *)
Theorem main_plain_name_target
    (fuel : nat) (argc : Z) (arg0 : char_array) (rest : list char_array)
    (t : list ascii) (w : world) :
  cstr arg0 = Ok t →
  "/" ∉ t →
  length t ≤ 1011 →
  (∀ content,
     files w !! (t ++ chars "/example.txt") = Some content →
     NUL ∉ content → length content < fuel →
     main fuel argc (arg0 :: rest) w
     = Ok (0%Z, World (files w) (streams w)
                  (stdout w ++ labels_for t (t ++ chars "/example.txt") ++ content)
                  (stderr w)))
  ∧ (files w !! (t ++ chars "/example.txt") = None →
     main fuel argc (arg0 :: rest) w
     = Ok (0%Z, World (files w) (streams w)
                  (stdout w ++ labels_for t (t ++ chars "/example.txt"))
                  (stderr w ++ diagnostic (t ++ chars "/example.txt")))).
Proof.
  intros Harg Ht Hlen.
  apply (main_in_dir fuel argc arg0 rest t t w); try done; [lia|].
  unfold runtime_dir. by apply before_last_None in Ht as ->.
Qed.

Lemma main_plain_name_target_witness :
  (∀ content,
     files nothing_there !! (chars "app" ++ chars "/example.txt") = Some content →
     NUL ∉ content → length content < 0 →
     main 0 1 [c_str (chars "app")] nothing_there
     = Ok (0%Z, World (files nothing_there) (streams nothing_there)
                  (stdout nothing_there
                   ++ labels_for (chars "app") (chars "app" ++ chars "/example.txt")
                   ++ content)
                  (stderr nothing_there)))
  ∧ (files nothing_there !! (chars "app" ++ chars "/example.txt") = None →
     main 0 1 [c_str (chars "app")] nothing_there
     = Ok (0%Z, World (files nothing_there) (streams nothing_there)
                  (stdout nothing_there
                   ++ labels_for (chars "app") (chars "app" ++ chars "/example.txt"))
                  (stderr nothing_there
                   ++ diagnostic (chars "app" ++ chars "/example.txt")))).
Proof.
  apply (main_plain_name_target 0 1 (c_str (chars "app")) [] (chars "app")
           nothing_there).
  - vm_compute. reflexivity.
  - by_evaluation.
  - vm_compute. lia.
Defined.


